(** * G.711 companding codec (EzG711.c): A-law, mu-law and direct conversion

    Shallow embedding of src/utils/libEasyCapture/G711/EzG711.c.

    C integers are carried as [Z] with the conversions of the C abstract
    machine written out.  The integer model is the usual one for this code
    base: [int] and [unsigned] are 32 bits wide, [int16_t] and [uint8_t] are
    exact-width.  The width of [size_t] is a parameter of the buffer
    transforms (32 on ILP32 targets, 64 on LP64 targets). *)

From Stdlib Require Import ZArith List Bool Lia.
Import ListNotations.

Local Open Scope Z_scope.

(** ** Integer conversions *)

Module CInt.

(** Conversion to [uint8_t]. *)
Definition to_uint8 (z : Z) : Z := z mod 256.

(** Conversion to [unsigned] (32 bits). *)
Definition to_uint (z : Z) : Z := z mod 2 ^ 32.

(** Conversion to [size_t], [bits] wide. *)
Definition to_size_t (bits z : Z) : Z := z mod 2 ^ bits.

(** Conversion to [int16_t] (two's complement wrap-around). *)
Definition to_int16 (z : Z) : Z := (z + 32768) mod 65536 - 32768.

Definition is_uint8 (z : Z) : Prop := 0 <= z < 256.
Definition is_int16 (z : Z) : Prop := -32768 <= z <= 32767.
Definition is_size_t (bits z : Z) : Prop := 0 <= z < 2 ^ bits.

End CInt.

Import CInt.

(** ** Scalar transforms *)

(** [static uint8_t ALawEncode_S(int16_t pcm16)] *)
Definition ALawEncode_S (pcm16 : Z) : Z :=
  let p := pcm16 in
  let '(p, a) :=
    if p <? 0 then (Z.lnot p, 0x00) else (p, 0x80) in
  let p := Z.shiftr p 4 in
  let '(p, a) :=
    if p >=? 0x20 then
      let '(p, a) :=
        if p >=? 0x100 then (Z.shiftr p 4, to_uint (a + 0x40)) else (p, a) in
      let '(p, a) :=
        if p >=? 0x40 then (Z.shiftr p 2, to_uint (a + 0x20)) else (p, a) in
      if p >=? 0x20 then (Z.shiftr p 1, to_uint (a + 0x10)) else (p, a)
    else (p, a) in
  let a := to_uint (a + p) in
  to_uint8 (Z.lxor a 0x55).

(** [static int ALawDecode_S(uint8_t alaw)] *)
Definition ALawDecode_S (alaw : Z) : Z :=
  let alaw := to_uint8 (Z.lxor alaw 0x55) in
  let sign := Z.land alaw 0x80 in
  let linear := Z.land alaw 0x1f in
  let linear := Z.shiftl linear 4 in
  let linear := linear + 8 in
  let alaw := to_uint8 (Z.land alaw 0x7f) in
  let linear :=
    if alaw >=? 0x20 then
      let linear := Z.lor linear 0x100 in
      let shift := to_uint (Z.shiftr alaw 4 - 1) in
      Z.shiftl linear shift
    else linear in
  if sign =? 0 then - linear else linear.

(** [static uint8_t ULawEncode_S(int16_t pcm16)] *)
Definition ULawEncode_S (pcm16 : Z) : Z :=
  let p := pcm16 in
  let '(p, u) :=
    if p <? 0
    then (Z.lnot p, Z.lxor (Z.lxor 0x80 0x10) 0xff)
    else (p, Z.lxor (Z.lxor 0x00 0x10) 0xff) in
  let p := p + 0x84 in
  let p := if p >? 0x7f00 then 0x7f00 else p in
  let p := Z.shiftr p 3 in
  let '(p, u) :=
    if p >=? 0x100 then (Z.shiftr p 4, Z.lxor u 0x40) else (p, u) in
  let '(p, u) :=
    if p >=? 0x40 then (Z.shiftr p 2, Z.lxor u 0x20) else (p, u) in
  let '(p, u) :=
    if p >=? 0x20 then (Z.shiftr p 1, Z.lxor u 0x10) else (p, u) in
  let u := Z.lxor u p in
  to_uint8 u.

(** [static int ULawDecode_S(uint8_t ulaw)] *)
Definition ULawDecode_S (ulaw : Z) : Z :=
  let ulaw := to_uint8 (Z.lxor ulaw 0xff) in
  let linear := Z.land ulaw 0x0f in
  let linear := Z.shiftl linear 3 in
  let linear := Z.lor linear 0x84 in
  let shift := Z.shiftr ulaw 4 in
  let shift := Z.land shift 7 in
  let linear := Z.shiftl linear shift in
  let linear := linear - 0x84 in
  if negb (Z.land ulaw 0x80 =? 0) then - linear else linear.

(** [static uint8_t ALawToULaw_S(uint8_t alaw)] *)
Definition ALawToULaw_S (alaw : Z) : Z :=
  let sign := to_uint8 (Z.land alaw 0x80) in
  let alaw := to_uint8 (Z.lxor alaw sign) in
  let alaw := to_uint8 (Z.lxor alaw 0x55) in
  let ulaw :=
    to_uint
      (if alaw <? 45 then
         if alaw <? 24
         then (if alaw <? 8 then Z.shiftl alaw 1 + 1 else alaw + 8)
         else (if alaw <? 32 then Z.shiftr alaw 1 + 20 else alaw + 4)
       else
         if alaw <? 63
         then (if alaw <? 47 then alaw + 3 else alaw + 2)
         else (if alaw <? 79 then alaw + 1 else alaw)) in
  let ulaw := Z.lxor ulaw sign in
  to_uint8 (Z.lxor ulaw 0x7f).

(** [static uint8_t ULawToALaw_S(uint8_t ulaw)] *)
Definition ULawToALaw_S (ulaw : Z) : Z :=
  let sign := to_uint8 (Z.land ulaw 0x80) in
  let ulaw := to_uint8 (Z.lxor ulaw sign) in
  let ulaw := to_uint8 (Z.lxor ulaw 0x7f) in
  let alaw :=
    to_uint
      (if ulaw <? 48 then
         if ulaw <=? 32
         then (if ulaw <=? 15 then Z.shiftr ulaw 1 else ulaw - 8)
         else (if ulaw <=? 35 then Z.shiftl ulaw 1 - 40 else ulaw - 4)
       else
         if ulaw <=? 63
         then (if ulaw =? 48 then ulaw - 3 else ulaw - 2)
         else (if ulaw <=? 79 then ulaw - 1 else ulaw)) in
  let alaw := Z.lxor alaw sign in
  to_uint8 (Z.lxor alaw 0x55).

(** ** Buffer transforms

    A buffer is the array a pointer argument refers to: cell [i] holds the
    element at [ptr + i], in units of the pointer's element type.  The caller
    owns both buffers, keeps them apart and makes them large enough. *)

Definition buffer : Type := Z -> Z.

(** [*p = v] for the cell at index [i]. *)
Definition store (m : buffer) (i v : Z) : buffer :=
  fun j => if j =? i then v else m j.

(** [while (dst < end) *dst++ = f( *src++ );]

    [dst] moves up by one per iteration, so the body runs [end - dst] times;
    [n] is that number of iterations still to run. *)
Fixpoint transform (f : Z -> Z) (n : nat) (dst src : Z) (out inp : buffer)
  : buffer :=
  match n with
  | O => out
  | S k => transform f k (dst + 1) (src + 1) (store out dst (f (inp src))) inp
  end.

Section Wrappers.

(** Width of [size_t] on the target. *)
Variable size_t_bits : Z.

(** [unsigned ALawEncode(unsigned char* dst, short* src, size_t srcSize)] *)
Definition ALawEncode (dst src : buffer) (srcSize : Z) : buffer * Z :=
  let srcSize := Z.shiftr srcSize 1 in
  let dst_p := 0 in
  let end_p := dst_p + srcSize in
  (transform ALawEncode_S (Z.to_nat (end_p - dst_p)) dst_p 0 dst src,
   to_uint srcSize).

(** [unsigned ALawDecode(short* dst, const unsigned char* src, size_t srcSize)] *)
Definition ALawDecode (dst src : buffer) (srcSize : Z) : buffer * Z :=
  let dst_p := 0 in
  let end_p := dst_p + srcSize in
  (transform (fun c => to_int16 (ALawDecode_S c))
             (Z.to_nat (end_p - dst_p)) dst_p 0 dst src,
   to_uint (to_size_t size_t_bits (Z.shiftl srcSize 1))).

(** [unsigned ULawEncode(uint8_t* dst, int16_t* src, size_t srcSize)] *)
Definition ULawEncode (dst src : buffer) (srcSize : Z) : buffer * Z :=
  let srcSize := Z.shiftr srcSize 1 in
  let dst_p := 0 in
  let end_p := dst_p + srcSize in
  (transform ULawEncode_S (Z.to_nat (end_p - dst_p)) dst_p 0 dst src,
   to_uint srcSize).

(** [unsigned ULawDecode(int16_t* dst, const uint8_t* src, size_t srcSize)] *)
Definition ULawDecode (dst src : buffer) (srcSize : Z) : buffer * Z :=
  let dst_p := 0 in
  let end_p := dst_p + srcSize in
  (transform (fun c => to_int16 (ULawDecode_S c))
             (Z.to_nat (end_p - dst_p)) dst_p 0 dst src,
   to_uint (to_size_t size_t_bits (Z.shiftl srcSize 1))).

(** [unsigned ALawToULaw(uint8_t* dst, const uint8_t* src, size_t srcSize)] *)
Definition ALawToULaw (dst src : buffer) (srcSize : Z) : buffer * Z :=
  let dst_p := 0 in
  let end_p := dst_p + srcSize in
  (transform ALawToULaw_S (Z.to_nat (end_p - dst_p)) dst_p 0 dst src,
   to_uint srcSize).

(** [unsigned ULawToALaw(uint8_t* dst, const uint8_t* src, size_t srcSize)] *)
Definition ULawToALaw (dst src : buffer) (srcSize : Z) : buffer * Z :=
  let dst_p := 0 in
  let end_p := dst_p + srcSize in
  (transform ULawToALaw_S (Z.to_nat (end_p - dst_p)) dst_p 0 dst src,
   to_uint srcSize).

End Wrappers.

(** A buffer holding the elements of a list, zero beyond it. *)
Definition buffer_of_list (l : list Z) : buffer :=
  fun i => if i <? 0 then 0 else nth (Z.to_nat i) l 0.

(** The first [n] cells of a buffer. *)
Definition prefix (n : nat) (m : buffer) : list Z :=
  map (fun k => m (Z.of_nat k)) (seq 0 n).

(** After the call [out'] holds [f (inp i)] in its first [count] cells and
    what [out] held everywhere else. *)
Definition writes_exactly
  (out' out inp : buffer) (f : Z -> Z) (count : Z) : Prop :=
  forall i, out' i = if (0 <=? i) && (i <? count) then f (inp i) else out i.

(** The value [ret] returned through [unsigned] for a count [n]. *)
Definition returns_count (ret n : Z) : Prop :=
  ret = n mod 2 ^ 32 /\ (n < 2 ^ 32 -> ret = n).

(** A call does its job when it writes [f] of the first [count] source
    elements and returns [ret] through its [unsigned] result. *)
Definition transforms
  (call : buffer * Z) (out inp : buffer) (f : Z -> Z) (count ret : Z) : Prop :=
  writes_exactly (fst call) out inp f count /\ returns_count (snd call) ret.

(** A buffer of zero cells of any length. *)
Definition zeros : buffer := fun _ => 0.

(** ** Code points of the two laws

    Both decoders first undo the transmission mask and then read the byte as
    sign bit, 3-bit segment and 4-bit interval.  The 7 low bits taken together
    number the quantization buckets of one sign half from 0 to 127. *)

(** Sign bit of an A-law byte, as read by [ALawDecode_S]. *)
Definition alaw_sign (b : Z) : Z := Z.land (to_uint8 (Z.lxor b 0x55)) 0x80.

(** Bucket number (segment and interval) of an A-law byte. *)
Definition alaw_level (b : Z) : Z := Z.land (to_uint8 (Z.lxor b 0x55)) 0x7f.

(** Segment number of an A-law byte. *)
Definition alaw_segment (b : Z) : Z := Z.shiftr (alaw_level b) 4.

(** Sign bit of a mu-law byte, as read by [ULawDecode_S]. *)
Definition ulaw_sign (b : Z) : Z := Z.land (to_uint8 (Z.lxor b 0xff)) 0x80.

(** Bucket number (segment and interval) of a mu-law byte. *)
Definition ulaw_level (b : Z) : Z := Z.land (to_uint8 (Z.lxor b 0xff)) 0x7f.

(** Encode followed by decode: the reconstruction of a linear sample. *)
Definition alaw_recon (x : Z) : Z := ALawDecode_S (ALawEncode_S x).
Definition ulaw_recon (x : Z) : Z := ULawDecode_S (ULawEncode_S x).

(** Magnitude that the encoders segment: negative samples are complemented. *)
Definition magnitude (x : Z) : Z := if x <? 0 then Z.lnot x else x.

(** Width of the quantization bucket of a mu-law byte: 8 in segment 0,
    doubling with each segment. *)
Definition ulaw_step (b : Z) : Z := Z.shiftl 8 (Z.shiftr (ulaw_level b) 4).

(** Width of the quantization bucket of an A-law byte: 16 in segments 0 and
    1, doubling with each further segment. *)
Definition alaw_step (b : Z) : Z :=
  let s := alaw_segment b in
  if s =? 0 then 16 else Z.shiftl 16 (s - 1).

(** The part of [ULawEncode_S] after the clip: segment search on the working
    value [p] and combination with the sign seed [u]. *)
Definition ulaw_segmenting (p u : Z) : Z :=
  let p := Z.shiftr p 3 in
  let '(p, u) :=
    if p >=? 0x100 then (Z.shiftr p 4, Z.lxor u 0x40) else (p, u) in
  let '(p, u) :=
    if p >=? 0x40 then (Z.shiftr p 2, Z.lxor u 0x20) else (p, u) in
  let '(p, u) :=
    if p >=? 0x20 then (Z.shiftr p 1, Z.lxor u 0x10) else (p, u) in
  let u := Z.lxor u p in
  to_uint8 u.

(** Sign seed of [ULawEncode_S]: 0x6f for negative samples, 0xef otherwise. *)
Definition ulaw_seed (x : Z) : Z :=
  if x <? 0
  then Z.lxor (Z.lxor 0x80 0x10) 0xff
  else Z.lxor (Z.lxor 0x00 0x10) 0xff.

(** ** Facts checked sample by sample

    One pass over a sample [x] that encodes it once in each law and tests the
    quantization error, the sign of the reconstruction, the effect of
    complementing [x] on the mu-law code and the low bits of [x] in A-law. *)
Definition sample_facts (x : Z) : bool :=
  let a := ALawEncode_S x in
  let u := ULawEncode_S x in
  let ra := ALawDecode_S a in
  let ru := ULawDecode_S u in
  (2 * Z.abs (ra - x) <=? alaw_step a) &&
  (Z.abs (ra - x) <=? 512) &&
  implb (magnitude x + 0x84 <=? 0x7f00) (2 * Z.abs (ru - x) <=? ulaw_step u) &&
  (Z.abs (ru - x) <=? 644) &&
  (if x <? 0 then (ra <=? - 8) && (ru <=? 0) else (8 <=? ra) && (0 <=? ru)) &&
  (ULawEncode_S (- x - 1) =? Z.lxor u 0x80) &&
  (a =? ALawEncode_S (16 * (x / 16))).

(** The buffer seen through the pointer [ptr + k]. *)
Definition advance (m : buffer) (k : Z) : buffer := fun i => m (k + i).

(** Memory after two calls on consecutive chunks: [first] up to cell [n],
    then what the second call left in the buffer it saw from cell [n] on. *)
Definition chunks_agree (whole first second : buffer) (n : Z) : Prop :=
  forall j, whole j = if j <? n then first j else second (j - n).

(** ** Deciding a property on a finite range *)

(** [all_in_range n lo P] checks [P] on [lo], [lo+1], ..., [lo+n-1]. *)
Fixpoint all_in_range (n : nat) (lo : Z) (P : Z -> bool) : bool :=
  match n with
  | O => true
  | S k => P lo && all_in_range k (lo + 1) P
  end.

Definition all_bytes (P : Z -> bool) : bool :=
  all_in_range (Z.to_nat 256) 0 P.

Definition all_int16 (P : Z -> bool) : bool :=
  all_in_range (Z.to_nat 65536) (-32768) P.

Lemma all_in_range_spec (P : Z -> bool) :
  forall n lo, all_in_range n lo P = true ->
  forall z, lo <= z < lo + Z.of_nat n -> P z = true.
Proof.
  induction n as [|k IH]; intros lo Hall z Hz.
  - simpl in Hz. lia.
  - simpl in Hall. apply andb_true_iff in Hall as [Hlo Hrest].
    destruct (Z.eq_dec z lo) as [->|Hne]; [exact Hlo|].
    apply (IH (lo + 1) Hrest). lia.
Qed.

Lemma all_in_range_count (P : Z -> bool) (count lo : Z) :
  all_in_range (Z.to_nat count) lo P = true ->
  forall z, lo <= z < lo + count -> P z = true.
Proof.
  intros Hall z Hz. apply (all_in_range_spec P _ _ Hall).
  rewrite Z2Nat.id; lia.
Qed.

Lemma all_bytes_spec (P : Z -> bool) :
  all_bytes P = true -> forall b, is_uint8 b -> P b = true.
Proof.
  unfold all_bytes, is_uint8. intros Hall b Hb.
  apply all_in_range_count with (count := 256) (lo := 0); [exact Hall | lia].
Qed.

Lemma all_int16_spec (P : Z -> bool) :
  all_int16 P = true -> forall x, is_int16 x -> P x = true.
Proof.
  unfold all_int16, is_int16. intros Hall x Hx.
  apply all_in_range_count with (count := 65536) (lo := -32768); [exact Hall | lia].
Qed.

(** [byte_check P b Hb H] adds [H : P b = true] for a byte [b], after
    evaluating the boolean check [P] on all 256 bytes. *)
Ltac byte_check P b Hb H :=
  pose proof (all_bytes_spec P ltac:(vm_compute; reflexivity) b Hb) as H;
  cbv beta in H.

(** The same over all 65536 values of [int16_t]. *)
Ltac int16_check P x Hx H :=
  pose proof (all_int16_spec P ltac:(vm_compute; reflexivity) x Hx) as H;
  cbv beta in H.

(** ** Scalar results are well-typed *)

(** Both encoders end in a conversion to [uint8_t], whatever the path. *)
Ltac split_paths :=
  repeat match goal with
         | |- context [let '(_, _) := ?c in _] => destruct c
         end.

Lemma ALawEncode_S_uint8 (x : Z) : is_uint8 (ALawEncode_S x).
Proof.
  unfold ALawEncode_S, is_uint8, to_uint8. split_paths.
  apply Z.mod_pos_bound. lia.
Qed.

Lemma ULawEncode_S_uint8 (x : Z) : is_uint8 (ULawEncode_S x).
Proof.
  unfold ULawEncode_S, is_uint8, to_uint8. split_paths.
  apply Z.mod_pos_bound. lia.
Qed.

Lemma lnot_opp (x : Z) : Z.lnot x = - x - 1.
Proof. unfold Z.lnot. lia. Qed.

(** ** Round trips on code bytes *)

(** C1: for every byte b in [0,255], encoding the A-law reconstruction of b
    gives b back: ALawEncode_S(ALawDecode_S(b)) = b. *)
Theorem alaw_roundtrip (b : Z) :
  is_uint8 b -> ALawEncode_S (to_int16 (ALawDecode_S b)) = b.
Proof.
  intros Hb.
  byte_check (fun b => ALawEncode_S (to_int16 (ALawDecode_S b)) =? b) b Hb H.
  now apply Z.eqb_eq.
Qed.

Lemma alaw_roundtrip_witness :
  is_uint8 0xd5 /\ ALawEncode_S (to_int16 (ALawDecode_S 0xd5)) = 0xd5.
Proof.
  split; [unfold is_uint8; lia | apply (alaw_roundtrip 0xd5); unfold is_uint8; lia].
Defined.

(** The mu-law code has two zeros.  Byte 0x7f is the negative one; it decodes
    to the integer 0, which encodes as the positive zero 0xff. *)
Lemma negative_zero_reencodes_positive :
  is_uint8 0x7f /\ ULawEncode_S (to_int16 (ULawDecode_S 0x7f)) <> 0x7f.
Proof.
  split; [unfold is_uint8; lia | vm_compute; discriminate].
Qed.

(** C2 (amended): for every byte b in [0,255] other than 0x7f, encoding the
    mu-law reconstruction of b gives b back; the negative zero 0x7f comes
    back as the positive zero 0xff. *)
Theorem ulaw_roundtrip (b : Z) :
  is_uint8 b ->
  ULawEncode_S (to_int16 (ULawDecode_S b)) = if b =? 0x7f then 0xff else b.
Proof.
  intros Hb.
  byte_check
    (fun b => ULawEncode_S (to_int16 (ULawDecode_S b))
              =? if b =? 0x7f then 0xff else b) b Hb H.
  now apply Z.eqb_eq.
Qed.

Lemma ulaw_roundtrip_witness :
  is_uint8 0x2a /\ ULawEncode_S (to_int16 (ULawDecode_S 0x2a)) = 0x2a.
Proof.
  split; [unfold is_uint8; lia | apply (ulaw_roundtrip 0x2a); unfold is_uint8; lia].
Defined.

(** ** Range of the decoders *)

Lemma decode_bounds (b : Z) :
  is_uint8 b ->
  Z.abs (ALawDecode_S b) <= 0x7E00 /\ Z.abs (ULawDecode_S b) <= 32124.
Proof.
  intros Hb.
  byte_check
    (fun b => (Z.abs (ALawDecode_S b) <=? 0x7E00) &&
              (Z.abs (ULawDecode_S b) <=? 32124)) b Hb H.
  apply andb_true_iff in H as [Ha Hu].
  apply Z.leb_le in Ha, Hu. auto.
Qed.

(** A value within the [int16_t] range converts to itself. *)
Lemma to_int16_id (z : Z) : is_int16 z -> to_int16 z = z.
Proof.
  unfold is_int16, to_int16. intros Hz. rewrite Z.mod_small; lia.
Qed.

Lemma decode_is_int16 (b : Z) :
  is_uint8 b -> is_int16 (ALawDecode_S b) /\ is_int16 (ULawDecode_S b).
Proof.
  intros Hb. destruct (decode_bounds b Hb) as [Ha Hu].
  unfold is_int16. lia.
Qed.

(** C10: every byte decodes to a value of magnitude at most 0x7E00 (A-law)
    and 32124 (mu-law), so the conversion to [int16_t] done by the store in
    ALawDecode and ULawDecode leaves the decoded value unchanged. *)
Theorem decode_fits_int16 (b : Z) :
  is_uint8 b ->
  Z.abs (ALawDecode_S b) <= 0x7E00 /\
  Z.abs (ULawDecode_S b) <= 32124 /\
  to_int16 (ALawDecode_S b) = ALawDecode_S b /\
  to_int16 (ULawDecode_S b) = ULawDecode_S b.
Proof.
  intros Hb.
  destruct (decode_bounds b Hb) as [Ha Hu].
  destruct (decode_is_int16 b Hb) as [Ia Iu].
  repeat split; try assumption; now apply to_int16_id.
Qed.

Lemma decode_fits_int16_witness :
  is_uint8 0xaa /\
  Z.abs (ALawDecode_S 0xaa) <= 0x7E00 /\
  Z.abs (ULawDecode_S 0xaa) <= 32124 /\
  to_int16 (ALawDecode_S 0xaa) = ALawDecode_S 0xaa /\
  to_int16 (ULawDecode_S 0xaa) = ULawDecode_S 0xaa.
Proof.
  split; [unfold is_uint8; lia | apply (decode_fits_int16 0xaa); unfold is_uint8; lia].
Defined.

(** Both bounds are reached. *)
Example decode_extremes :
  ALawDecode_S 0xaa = 0x7E00 /\ ALawDecode_S 0x2a = - 0x7E00 /\
  ULawDecode_S 0x80 = 32124 /\ ULawDecode_S 0x00 = - 32124.
Proof. repeat split. Qed.

(** ** Bucket numbers order the reconstruction values

    Within one law the decoded magnitude grows strictly with the bucket
    number, so two bytes of the same sign whose bucket numbers differ by one
    are neighbouring quantization buckets. *)

Lemma ulaw_level_orders_magnitude (b c : Z) :
  is_uint8 b -> is_uint8 c ->
  ulaw_level b < ulaw_level c ->
  Z.abs (ULawDecode_S b) < Z.abs (ULawDecode_S c).
Proof.
  intros Hb Hc Hlt.
  byte_check
    (fun b => all_bytes (fun c =>
       implb (ulaw_level b <? ulaw_level c)
             (Z.abs (ULawDecode_S b) <? Z.abs (ULawDecode_S c)))) b Hb H.
  pose proof (all_bytes_spec _ H c Hc) as H'. cbv beta in H'.
  apply Z.ltb_lt in Hlt. rewrite Hlt in H'. now apply Z.ltb_lt.
Qed.

Lemma alaw_level_orders_magnitude (b c : Z) :
  is_uint8 b -> is_uint8 c ->
  alaw_level b < alaw_level c ->
  Z.abs (ALawDecode_S b) < Z.abs (ALawDecode_S c).
Proof.
  intros Hb Hc Hlt.
  byte_check
    (fun b => all_bytes (fun c =>
       implb (alaw_level b <? alaw_level c)
             (Z.abs (ALawDecode_S b) <? Z.abs (ALawDecode_S c)))) b Hb H.
  pose proof (all_bytes_spec _ H c Hc) as H'. cbv beta in H'.
  apply Z.ltb_lt in Hlt. rewrite Hlt in H'. now apply Z.ltb_lt.
Qed.

(** ** Direct conversion between the laws *)

(** C4: for every byte b in [0,255], ALawToULaw_S(b) and the composed path
    ULawEncode_S(ALawDecode_S(b)) carry the same sign and their mu-law bucket
    numbers differ by at most one (equal or neighbouring buckets); the values
    they decode to are at most one bucket width apart. *)
Theorem alaw_to_ulaw_near_composed (b : Z) :
  is_uint8 b ->
  let direct := ALawToULaw_S b in
  let composed := ULawEncode_S (to_int16 (ALawDecode_S b)) in
  ulaw_sign direct = ulaw_sign composed /\
  Z.abs (ulaw_level direct - ulaw_level composed) <= 1 /\
  Z.abs (ULawDecode_S direct - ULawDecode_S composed)
    <= Z.max (ulaw_step direct) (ulaw_step composed).
Proof.
  intros Hb.
  byte_check
    (fun b =>
       let direct := ALawToULaw_S b in
       let composed := ULawEncode_S (to_int16 (ALawDecode_S b)) in
       (ulaw_sign direct =? ulaw_sign composed) &&
       (Z.abs (ulaw_level direct - ulaw_level composed) <=? 1) &&
       (Z.abs (ULawDecode_S direct - ULawDecode_S composed)
          <=? Z.max (ulaw_step direct) (ulaw_step composed))) b Hb H.
  cbv zeta in *.
  apply andb_true_iff in H as [H H3]. apply andb_true_iff in H as [H1 H2].
  apply Z.eqb_eq in H1. apply Z.leb_le in H2, H3. auto.
Qed.

Lemma alaw_to_ulaw_near_composed_witness :
  is_uint8 26 /\
  ulaw_sign (ALawToULaw_S 26)
    = ulaw_sign (ULawEncode_S (to_int16 (ALawDecode_S 26))) /\
  Z.abs (ulaw_level (ALawToULaw_S 26)
         - ulaw_level (ULawEncode_S (to_int16 (ALawDecode_S 26)))) <= 1.
Proof.
  assert (Hb : is_uint8 26) by (unfold is_uint8; lia).
  split; [exact Hb|].
  destruct (alaw_to_ulaw_near_composed 26 Hb) as (Hs & Hl & _).
  split; [exact Hs | exact Hl].
Defined.

(** The two paths do disagree: byte 26 converts to 48, the composed path
    gives 47. *)
Example alaw_to_ulaw_differs_at_26 :
  ALawToULaw_S 26 = 48 /\ ULawEncode_S (to_int16 (ALawDecode_S 26)) = 47.
Proof. split; reflexivity. Qed.

(** C8: for every byte b in [0,255], ULawToALaw_S(ALawToULaw_S(b)) keeps the
    sign of b and lands in the same or a neighbouring A-law bucket, hence at
    most one segment and at most one bucket width away from b; it is not
    always b itself. *)
Theorem alaw_ulaw_alaw_chain (b : Z) :
  is_uint8 b ->
  let back := ULawToALaw_S (ALawToULaw_S b) in
  alaw_sign back = alaw_sign b /\
  Z.abs (alaw_level back - alaw_level b) <= 1 /\
  Z.abs (alaw_segment back - alaw_segment b) <= 1 /\
  Z.abs (ALawDecode_S back - ALawDecode_S b)
    <= Z.max (alaw_step back) (alaw_step b) /\
  ULawToALaw_S (ALawToULaw_S 26) <> 26.
Proof.
  intros Hb.
  byte_check
    (fun b =>
       let back := ULawToALaw_S (ALawToULaw_S b) in
       (alaw_sign back =? alaw_sign b) &&
       (Z.abs (alaw_level back - alaw_level b) <=? 1) &&
       (Z.abs (alaw_segment back - alaw_segment b) <=? 1) &&
       (Z.abs (ALawDecode_S back - ALawDecode_S b)
          <=? Z.max (alaw_step back) (alaw_step b))) b Hb H.
  cbv zeta in *.
  apply andb_true_iff in H as [H H4]. apply andb_true_iff in H as [H H3].
  apply andb_true_iff in H as [H1 H2].
  apply Z.eqb_eq in H1. apply Z.leb_le in H2, H3, H4.
  repeat split; try assumption.
  vm_compute. discriminate.
Qed.

Lemma alaw_ulaw_alaw_chain_witness :
  is_uint8 107 /\
  alaw_sign (ULawToALaw_S (ALawToULaw_S 107)) = alaw_sign 107 /\
  Z.abs (alaw_level (ULawToALaw_S (ALawToULaw_S 107)) - alaw_level 107) <= 1.
Proof.
  assert (Hb : is_uint8 107) by (unfold is_uint8; lia).
  split; [exact Hb|].
  destruct (alaw_ulaw_alaw_chain 107 Hb) as (Hs & Hl & _).
  split; [exact Hs | exact Hl].
Defined.

(** The 16 bytes that the chain moves, each by one bucket. *)
Example alaw_ulaw_alaw_moved :
  filter (fun b => negb (ULawToALaw_S (ALawToULaw_S b) =? b))
         (map Z.of_nat (seq 0 256))
  = [26; 72; 74; 76; 78; 107; 121; 123; 154; 200; 202; 204; 206; 235; 249; 251].
Proof. vm_compute. reflexivity. Qed.

(** ** Sign symmetry of A-law *)

(** Complementing the sample flips the sign bit of the code and nothing else. *)
Lemma ALawEncode_S_complement (x : Z) :
  is_int16 x -> ALawEncode_S (- x - 1) = Z.lxor (ALawEncode_S x) 0x80.
Proof.
  intros Hx.
  int16_check
    (fun x => ALawEncode_S (- x - 1) =? Z.lxor (ALawEncode_S x) 0x80) x Hx H.
  now apply Z.eqb_eq.
Qed.

(** Flipping the sign bit of a code negates the decoded value. *)
Lemma ALawDecode_S_sign_flip (b : Z) :
  is_uint8 b -> ALawDecode_S (Z.lxor b 0x80) = - ALawDecode_S b.
Proof.
  intros Hb.
  byte_check (fun b => ALawDecode_S (Z.lxor b 0x80) =? - ALawDecode_S b) b Hb H.
  now apply Z.eqb_eq.
Qed.

(** C5: for every 16-bit sample x, the A-law reconstruction of the ones'
    complement -x-1 is exactly the negation of the reconstruction of x. *)
Theorem alaw_sign_symmetry (x : Z) :
  is_int16 x ->
  ALawDecode_S (ALawEncode_S (- x - 1)) = - ALawDecode_S (ALawEncode_S x).
Proof.
  intros Hx.
  rewrite (ALawEncode_S_complement x Hx).
  apply ALawDecode_S_sign_flip, ALawEncode_S_uint8.
Qed.

Lemma alaw_sign_symmetry_witness :
  is_int16 1000 /\
  ALawDecode_S (ALawEncode_S (- 1000 - 1)) = - ALawDecode_S (ALawEncode_S 1000).
Proof.
  split; [unfold is_int16; lia | apply (alaw_sign_symmetry 1000); unfold is_int16; lia].
Defined.

(** The complement of an [int16_t] is an [int16_t]: no conversion is lost
    when -x-1 is passed to the encoder. *)
Lemma complement_is_int16 (x : Z) : is_int16 x -> to_int16 (- x - 1) = - x - 1.
Proof.
  intros Hx. apply to_int16_id. unfold is_int16 in *. lia.
Qed.

(** ** Monotonicity of the reconstruction *)

Section Monotone.

Variable f : Z -> Z.
Variables lo hi : Z.
Hypothesis step : forall x, lo <= x < hi -> f x <= f (x + 1).

(** A function that never decreases from one point to the next never
    decreases over the interval. *)
Lemma monotone_from_steps :
  forall x y, lo <= x -> x <= y -> y <= hi -> f x <= f y.
Proof.
  intros x y Hlo Hxy. revert y Hxy.
  apply (Zlt_lower_bound_ind (fun y => y <= hi -> f x <= f y) x).
  intros y IH Hy Hhi.
  destruct (Z.eq_dec y x) as [->|Hne]; [lia|].
  specialize (IH (y - 1) ltac:(lia) ltac:(lia)).
  specialize (step (y - 1) ltac:(lia)).
  replace (y - 1 + 1) with y in step by lia. lia.
Qed.

End Monotone.

Lemma recon_steps (x : Z) :
  - 32768 <= x < 32767 ->
  alaw_recon x <= alaw_recon (x + 1) /\ ulaw_recon x <= ulaw_recon (x + 1).
Proof.
  intros Hx.
  pose (P := fun x => (alaw_recon x <=? alaw_recon (x + 1)) &&
                      (ulaw_recon x <=? ulaw_recon (x + 1))).
  assert (H : all_in_range (Z.to_nat 65535) (- 32768) P = true)
    by (vm_compute; reflexivity).
  pose proof (all_in_range_count P 65535 (- 32768) H x ltac:(lia)) as Hp.
  unfold P in Hp. apply andb_true_iff in Hp as [Ha Hu].
  apply Z.leb_le in Ha, Hu. auto.
Qed.

Lemma alaw_recon_monotone (x y : Z) :
  is_int16 x -> is_int16 y -> x <= y -> alaw_recon x <= alaw_recon y.
Proof.
  unfold is_int16. intros Hx Hy Hxy.
  apply (monotone_from_steps alaw_recon (- 32768) 32767); try lia.
  intros z Hz. apply (recon_steps z Hz).
Qed.

Lemma ulaw_recon_monotone (x y : Z) :
  is_int16 x -> is_int16 y -> x <= y -> ulaw_recon x <= ulaw_recon y.
Proof.
  unfold is_int16. intros Hx Hy Hxy.
  apply (monotone_from_steps ulaw_recon (- 32768) 32767); try lia.
  intros z Hz. apply (recon_steps z Hz).
Qed.

(** C6: for both laws and all 16-bit samples x, y: if 0 <= x <= y then
    decode(encode(x)) <= decode(encode(y)), and if -1 >= x >= y then
    decode(encode(x)) >= decode(encode(y)). *)
Theorem recon_monotone_in_each_half (x y : Z) :
  is_int16 x -> is_int16 y ->
  (0 <= x <= y ->
     ALawDecode_S (ALawEncode_S x) <= ALawDecode_S (ALawEncode_S y) /\
     ULawDecode_S (ULawEncode_S x) <= ULawDecode_S (ULawEncode_S y)) /\
  (y <= x <= - 1 ->
     ALawDecode_S (ALawEncode_S x) >= ALawDecode_S (ALawEncode_S y) /\
     ULawDecode_S (ULawEncode_S x) >= ULawDecode_S (ULawEncode_S y)).
Proof.
  intros Hx Hy. split; intros Hxy.
  - split.
    + apply (alaw_recon_monotone x y); tauto.
    + apply (ulaw_recon_monotone x y); tauto.
  - split; apply Z.le_ge.
    + apply (alaw_recon_monotone y x); tauto.
    + apply (ulaw_recon_monotone y x); tauto.
Qed.

Lemma recon_monotone_in_each_half_witness :
  (ALawDecode_S (ALawEncode_S 100) <= ALawDecode_S (ALawEncode_S 2000) /\
   ULawDecode_S (ULawEncode_S 100) <= ULawDecode_S (ULawEncode_S 2000)) /\
  (ALawDecode_S (ALawEncode_S (- 100)) >= ALawDecode_S (ALawEncode_S (- 2000)) /\
   ULawDecode_S (ULawEncode_S (- 100)) >= ULawDecode_S (ULawEncode_S (- 2000))).
Proof.
  split.
  - apply (recon_monotone_in_each_half 100 2000); unfold is_int16; lia.
  - apply (recon_monotone_in_each_half (- 100) (- 2000)); unfold is_int16; lia.
Defined.

(** The reconstruction is a step function: it is not strictly increasing. *)
Example recon_plateau :
  alaw_recon 0 = 8 /\ alaw_recon 15 = 8 /\ alaw_recon 16 = 24 /\
  ulaw_recon 0 = 0 /\ ulaw_recon 3 = 0 /\ ulaw_recon 4 = 8.
Proof. repeat split. Qed.

(** ** Saturation of the mu-law encoder *)

(** [ULawEncode_S] segments the biased magnitude capped at 0x7f00. *)
Lemma ULawEncode_S_clip (x : Z) :
  ULawEncode_S x
  = ulaw_segmenting (Z.min (magnitude x + 0x84) 0x7f00) (ulaw_seed x).
Proof.
  unfold ULawEncode_S, ulaw_segmenting, ulaw_seed, magnitude.
  destruct (x <? 0); cbv zeta iota beta.
  - destruct (Z.gtb_spec (Z.lnot x + 0x84) 0x7f00).
    + rewrite Z.min_r by lia. reflexivity.
    + rewrite Z.min_l by lia. reflexivity.
  - destruct (Z.gtb_spec (x + 0x84) 0x7f00).
    + rewrite Z.min_r by lia. reflexivity.
    + rewrite Z.min_l by lia. reflexivity.
Qed.

(** C7: every 16-bit sample whose complemented magnitude plus the bias 0x84
    exceeds 0x7f00 is segmented at the capped value 0x7f00; the result is the
    byte 0x80 for non-negative and 0x00 for negative samples, the byte of
    largest decoded magnitude, and it is a valid byte (nothing is rejected). *)
Theorem ULawEncode_S_saturates (x : Z) :
  is_int16 x ->
  magnitude x + 0x84 > 0x7f00 ->
  ULawEncode_S x = ulaw_segmenting 0x7f00 (ulaw_seed x) /\
  ULawEncode_S x = (if x <? 0 then 0x00 else 0x80) /\
  Z.abs (ULawDecode_S (ULawEncode_S x)) = 32124 /\
  is_uint8 (ULawEncode_S x).
Proof.
  intros _ Hsat.
  assert (Hclip : ULawEncode_S x = ulaw_segmenting 0x7f00 (ulaw_seed x)).
  { rewrite ULawEncode_S_clip. rewrite Z.min_r by lia. reflexivity. }
  assert (Hbyte : ULawEncode_S x = if x <? 0 then 0x00 else 0x80).
  { rewrite Hclip. unfold ulaw_seed. destruct (x <? 0); reflexivity. }
  split; [exact Hclip|]. split; [exact Hbyte|]. split.
  - rewrite Hbyte. destruct (x <? 0); reflexivity.
  - apply ULawEncode_S_uint8.
Qed.

Lemma ULawEncode_S_saturates_witness :
  is_int16 32500 /\ magnitude 32500 + 0x84 > 0x7f00 /\ ULawEncode_S 32500 = 0x80.
Proof.
  assert (Hx : is_int16 32500) by (unfold is_int16; lia).
  assert (Hs : magnitude 32500 + 0x84 > 0x7f00) by reflexivity.
  split; [exact Hx|]. split; [exact Hs|].
  destruct (ULawEncode_S_saturates 32500 Hx Hs) as (_ & Hb & _). exact Hb.
Defined.

(** Saturating samples of the same sign share one code. *)
Corollary ULawEncode_S_saturated_equal (x y : Z) :
  is_int16 x -> is_int16 y ->
  magnitude x + 0x84 > 0x7f00 -> magnitude y + 0x84 > 0x7f00 ->
  (x <? 0) = (y <? 0) ->
  ULawEncode_S x = ULawEncode_S y.
Proof.
  intros Hx Hy Sx Sy Hsign.
  rewrite !ULawEncode_S_clip, !Z.min_r by lia.
  unfold ulaw_seed. now rewrite Hsign.
Qed.

(** The saturating samples are those from 32381 up and from -32382 down. *)
Lemma saturating_samples (x : Z) :
  magnitude x + 0x84 > 0x7f00 <-> (x >= 32381 \/ x <= - 32382).
Proof.
  unfold magnitude. destruct (Z.ltb_spec x 0); rewrite ?lnot_opp; lia.
Qed.

(** The last sample below saturation lands in the same top bucket. *)
Example ulaw_top_bucket :
  ULawEncode_S 32380 = 0x80 /\ ULawEncode_S 31612 = 0x80 /\
  ULawEncode_S 31611 = 0x81.
Proof. repeat split. Qed.

(** ** Buffer transforms: what is written and what is returned *)

Lemma store_eq (m : buffer) (i v : Z) : store m i v i = v.
Proof. unfold store. now rewrite Z.eqb_refl. Qed.

Lemma store_neq (m : buffer) (i j v : Z) : j <> i -> store m i v j = m j.
Proof. unfold store. intros H. apply Z.eqb_neq in H. now rewrite H. Qed.

(** The loop writes [f (inp (src + k))] to cell [dst + k] for each of its
    [n] iterations and touches no other cell. *)
Lemma transform_spec (f : Z -> Z) (inp : buffer) :
  forall n dst src out i,
    transform f n dst src out inp i
    = if (dst <=? i) && (i <? dst + Z.of_nat n)
      then f (inp (src + (i - dst)))
      else out i.
Proof.
  induction n as [|k IH]; intros dst src out i.
  - simpl. destruct (Z.leb_spec dst i), (Z.ltb_spec i (dst + 0)); simpl; try reflexivity; lia.
  - cbn [transform]. rewrite IH. rewrite Nat2Z.inj_succ.
    destruct (Z.leb_spec (dst + 1) i), (Z.ltb_spec i (dst + 1 + Z.of_nat k)),
             (Z.leb_spec dst i), (Z.ltb_spec i (dst + Z.succ (Z.of_nat k)));
      cbn [andb]; try lia;
      first [ do 2 f_equal; lia
            | assert (i = dst) by lia; subst i; rewrite store_eq;
              do 2 f_equal; lia
            | apply store_neq; lia ].
Qed.

Lemma transform_writes_exactly (f : Z -> Z) (count : Z) (out inp : buffer) :
  0 <= count ->
  writes_exactly (transform f (Z.to_nat (0 + count - 0)) 0 0 out inp) out inp f count.
Proof.
  intros Hc i. rewrite transform_spec.
  replace (0 + count - 0) with count by lia.
  rewrite Z2Nat.id by lia. rewrite Z.add_0_l, Z.sub_0_r. reflexivity.
Qed.

Lemma to_uint_returns_count (n : Z) : 0 <= n -> returns_count (to_uint n) n.
Proof.
  intros Hn. unfold returns_count, to_uint. split; [reflexivity|].
  intros Hlt. apply Z.mod_small. lia.
Qed.

(** Doubling in [size_t] and narrowing to [unsigned] is doubling modulo 2^32
    as soon as [size_t] has at least 32 bits. *)
Lemma doubled_returns_count (bits n : Z) :
  32 <= bits -> 0 <= n ->
  returns_count (to_uint (to_size_t bits (Z.shiftl n 1))) (2 * n).
Proof.
  intros Hbits Hn. unfold to_uint, to_size_t.
  rewrite Z.shiftl_mul_pow2 by lia. change (2 ^ 1) with 2.
  replace (n * 2) with (2 * n) by lia.
  assert (Hmod : ((2 * n) mod 2 ^ bits) mod 2 ^ 32 = (2 * n) mod 2 ^ 32).
  { replace bits with (32 + (bits - 32)) by lia.
    rewrite Z.pow_add_r by lia.
    rewrite Z.rem_mul_r by (try apply Z.pow_pos_nonneg; lia).
    rewrite (Z.mul_comm (2 ^ 32)), Z.mod_add by lia.
    apply Z.mod_mod. lia. }
  split; [exact Hmod|].
  intros Hlt. rewrite Hmod. apply Z.mod_small. lia.
Qed.

Lemma shiftr_1_half (n : Z) : Z.shiftr n 1 = n / 2.
Proof. rewrite Z.shiftr_div_pow2 by lia. reflexivity. Qed.

Section WrapperFacts.

Variable size_t_bits : Z.
Variables dst src : buffer.
Variable srcSize : Z.
Hypothesis srcSize_nonneg : 0 <= srcSize.

Lemma encode_transforms (f : Z -> Z) :
  transforms
    (transform f (Z.to_nat (0 + Z.shiftr srcSize 1 - 0)) 0 0 dst src,
     to_uint (Z.shiftr srcSize 1))
    dst src f (srcSize / 2) (srcSize / 2).
Proof.
  rewrite shiftr_1_half.
  assert (0 <= srcSize / 2) by (apply Z.div_pos; lia).
  split; cbn [fst snd].
  - now apply transform_writes_exactly.
  - now apply to_uint_returns_count.
Qed.

Lemma decode_transforms (f : Z -> Z) :
  32 <= size_t_bits ->
  transforms
    (transform f (Z.to_nat (0 + srcSize - 0)) 0 0 dst src,
     to_uint (to_size_t size_t_bits (Z.shiftl srcSize 1)))
    dst src f srcSize (2 * srcSize).
Proof.
  intros Hbits. split; cbn [fst snd].
  - now apply transform_writes_exactly.
  - now apply doubled_returns_count.
Qed.

Lemma convert_transforms (f : Z -> Z) :
  transforms
    (transform f (Z.to_nat (0 + srcSize - 0)) 0 0 dst src, to_uint srcSize)
    dst src f srcSize srcSize.
Proof.
  split; cbn [fst snd].
  - now apply transform_writes_exactly.
  - now apply to_uint_returns_count.
Qed.

End WrapperFacts.

(** The return value does not depend on the loop. *)
Lemma ALawDecode_returns (bits : Z) (dst src : buffer) (n : Z) :
  snd (ALawDecode bits dst src n) = to_uint (to_size_t bits (Z.shiftl n 1)).
Proof. reflexivity. Qed.

Lemma ALawEncode_returns (dst src : buffer) (n : Z) :
  snd (ALawEncode dst src n) = to_uint (Z.shiftr n 1).
Proof. reflexivity. Qed.

(** Decoding 2^31 companded bytes produces 2^32 bytes of samples, a number
    that the [unsigned] result cannot hold: the call returns 0. *)
Lemma decode_return_wraps :
  is_size_t 64 (2 ^ 31) /\
  snd (ALawDecode 64 zeros zeros (2 ^ 31)) = 0 /\
  snd (ALawDecode 64 zeros zeros (2 ^ 31)) <> 2 * 2 ^ 31.
Proof.
  rewrite ALawDecode_returns.
  split; [unfold is_size_t; lia|].
  split; [reflexivity | vm_compute; discriminate].
Qed.

(** C3 (amended): for every source buffer and every srcSize, ALawEncode and
    ULawEncode write exactly N = srcSize/2 companded bytes, ALawDecode and
    ULawDecode write exactly N = srcSize 16-bit samples, ALawToULaw and
    ULawToALaw write exactly N = srcSize bytes, leaving the rest of the
    destination alone; the value returned is N (for decode 2*N) reduced
    modulo 2^32 by the [unsigned] result type, hence N (2*N) itself whenever
    that is below 2^32. *)
Theorem buffer_size_law (size_t_bits : Z) (dst src : buffer) (srcSize : Z) :
  32 <= size_t_bits ->
  is_size_t size_t_bits srcSize ->
  transforms (ALawEncode dst src srcSize)
             dst src ALawEncode_S (srcSize / 2) (srcSize / 2) /\
  transforms (ULawEncode dst src srcSize)
             dst src ULawEncode_S (srcSize / 2) (srcSize / 2) /\
  transforms (ALawDecode size_t_bits dst src srcSize)
             dst src (fun c => to_int16 (ALawDecode_S c)) srcSize (2 * srcSize) /\
  transforms (ULawDecode size_t_bits dst src srcSize)
             dst src (fun c => to_int16 (ULawDecode_S c)) srcSize (2 * srcSize) /\
  transforms (ALawToULaw dst src srcSize)
             dst src ALawToULaw_S srcSize srcSize /\
  transforms (ULawToALaw dst src srcSize)
             dst src ULawToALaw_S srcSize srcSize.
Proof.
  intros Hbits [Hnonneg _].
  repeat split;
    first [ apply (encode_transforms dst src srcSize Hnonneg)
          | apply (decode_transforms size_t_bits dst src srcSize Hnonneg _ Hbits)
          | apply (convert_transforms dst src srcSize Hnonneg) ].
Qed.

Lemma buffer_size_law_witness :
  prefix 4 (fst (ALawEncode (buffer_of_list [7; 7; 7; 7])
                            (buffer_of_list [0; 1000; - 1000]) 6))
    = [0xd5; 0xfa; 0x7a; 7] /\
  snd (ALawEncode (buffer_of_list [7; 7; 7; 7])
                  (buffer_of_list [0; 1000; - 1000]) 6) = 3 /\
  snd (ALawDecode 64 (buffer_of_list [7; 7; 7; 7])
                  (buffer_of_list [0xd5; 0xfa; 0x7a]) 3) = 6.
Proof.
  assert (Hbits : 32 <= 64) by lia.
  assert (Hsix : is_size_t 64 6) by (unfold is_size_t; lia).
  assert (Hthree : is_size_t 64 3) by (unfold is_size_t; lia).
  destruct (buffer_size_law 64 (buffer_of_list [7; 7; 7; 7])
              (buffer_of_list [0; 1000; - 1000]) 6 Hbits Hsix)
    as ((Hw & _ & Hr) & _).
  destruct (buffer_size_law 64 (buffer_of_list [7; 7; 7; 7])
              (buffer_of_list [0xd5; 0xfa; 0x7a]) 3 Hbits Hthree)
    as (_ & _ & (_ & _ & Hd) & _).
  split; [|split].
  - unfold prefix. cbn [map seq]. rewrite !Hw. reflexivity.
  - apply Hr. reflexivity.
  - apply Hd. reflexivity.
Defined.

(** On byte sources the samples written by the decoders are the decoded
    values themselves: the store into [int16_t] cells loses nothing. *)
Lemma decode_cells_exact (bits : Z) (dst src : buffer) (srcSize i : Z) :
  (forall k, 0 <= k < srcSize -> is_uint8 (src k)) ->
  0 <= i < srcSize ->
  fst (ALawDecode bits dst src srcSize) i = ALawDecode_S (src i) /\
  fst (ULawDecode bits dst src srcSize) i = ULawDecode_S (src i).
Proof.
  intros Hsrc Hi.
  assert (Hin : (0 <=? i) && (i <? srcSize) = true).
  { apply andb_true_iff. split; [apply Z.leb_le | apply Z.ltb_lt]; lia. }
  unfold ALawDecode, ULawDecode. cbv zeta. cbn [fst].
  rewrite !(transform_writes_exactly _ srcSize dst src ltac:(lia) i), Hin.
  split; apply to_int16_id, decode_is_int16, Hsrc, Hi.
Qed.

(** ** Odd source sizes *)

(** With [size_t] 64 bits wide an odd srcSize of 2^33+1 makes the encoders
    write 2^32 bytes and return 0. *)
Lemma encode_odd_return_wraps :
  is_size_t 64 (2 ^ 33 + 1) /\
  Z.odd (2 ^ 33 + 1) = true /\
  snd (ALawEncode zeros zeros (2 ^ 33 + 1)) = 0 /\
  snd (ALawEncode zeros zeros (2 ^ 33 + 1)) <> (2 ^ 33 + 1) / 2.
Proof.
  rewrite ALawEncode_returns.
  split; [unfold is_size_t; lia|].
  split; [reflexivity|].
  split; [reflexivity | vm_compute; discriminate].
Qed.

(** What the encoders write depends on the first srcSize/2 samples only. *)
Lemma encode_reads_prefix (f : Z -> Z) (dst src src' : buffer) (count : Z) :
  0 <= count ->
  (forall k, 0 <= k < count -> src k = src' k) ->
  forall i,
    transform f (Z.to_nat (0 + count - 0)) 0 0 dst src i
    = transform f (Z.to_nat (0 + count - 0)) 0 0 dst src' i.
Proof.
  intros Hc Hsame i.
  rewrite !(transform_writes_exactly f count dst _ Hc i).
  destruct (Z.leb_spec 0 i), (Z.ltb_spec i count); cbn [andb]; try reflexivity.
  f_equal. apply Hsame. lia.
Qed.

(** C9 (amended): called with an odd srcSize, ALawEncode and ULawEncode take
    floor(srcSize/2) as element count: exactly that many bytes are written,
    the call behaves as with srcSize-1 and reads nothing past the last whole
    sample, and the value returned is floor(srcSize/2) reduced modulo 2^32 by
    the [unsigned] result type, hence floor(srcSize/2) itself whenever that
    is below 2^32. *)
Theorem encode_odd_size (size_t_bits : Z) (dst src : buffer) (srcSize : Z) :
  is_size_t size_t_bits srcSize ->
  Z.odd srcSize = true ->
  let count := srcSize / 2 in
  2 * count + 1 = srcSize /\
  transforms (ALawEncode dst src srcSize) dst src ALawEncode_S count count /\
  transforms (ULawEncode dst src srcSize) dst src ULawEncode_S count count /\
  (forall i, fst (ALawEncode dst src srcSize) i
             = fst (ALawEncode dst src (srcSize - 1)) i) /\
  (forall i, fst (ULawEncode dst src srcSize) i
             = fst (ULawEncode dst src (srcSize - 1)) i) /\
  snd (ALawEncode dst src srcSize) = snd (ALawEncode dst src (srcSize - 1)) /\
  snd (ULawEncode dst src srcSize) = snd (ULawEncode dst src (srcSize - 1)) /\
  (forall src', (forall k, 0 <= k < count -> src k = src' k) ->
     forall i, fst (ALawEncode dst src srcSize) i
               = fst (ALawEncode dst src' srcSize) i /\
               fst (ULawEncode dst src srcSize) i
               = fst (ULawEncode dst src' srcSize) i).
Proof.
  intros [Hnonneg _] Hodd count.
  assert (Hhalf : 2 * count + 1 = srcSize).
  { subst count. pose proof (Z.div_mod srcSize 2 ltac:(lia)) as Hdm.
    rewrite Zmod_odd, Hodd in Hdm. lia. }
  assert (Hcount : 0 <= count) by lia.
  assert (Heven : Z.shiftr (srcSize - 1) 1 = Z.shiftr srcSize 1).
  { rewrite !shiftr_1_half. fold count.
    replace (srcSize - 1) with (count * 2) by lia.
    apply Z.div_mul. lia. }
  split; [exact Hhalf|].
  split; [apply (encode_transforms dst src srcSize Hnonneg)|].
  split; [apply (encode_transforms dst src srcSize Hnonneg)|].
  unfold ALawEncode, ULawEncode. cbn [fst snd]. rewrite Heven.
  repeat split; try reflexivity.
  - rewrite shiftr_1_half. apply encode_reads_prefix; assumption.
  - rewrite shiftr_1_half. apply encode_reads_prefix; assumption.
Qed.

Lemma encode_odd_size_witness :
  prefix 4 (fst (ULawEncode (buffer_of_list [7; 7; 7; 7])
                            (buffer_of_list [0; 1000; - 1000; 5]) 7))
    = [0xff; 0xce; 0x4e; 7] /\
  snd (ULawEncode (buffer_of_list [7; 7; 7; 7])
                  (buffer_of_list [0; 1000; - 1000; 5]) 7) = 3.
Proof.
  assert (Hseven : is_size_t 64 7) by (unfold is_size_t; lia).
  destruct (encode_odd_size 64 (buffer_of_list [7; 7; 7; 7])
              (buffer_of_list [0; 1000; - 1000; 5]) 7 Hseven eq_refl)
    as (_ & _ & (Hw & _ & Hr) & _).
  split.
  - unfold prefix. cbn [map seq]. rewrite !Hw. reflexivity.
  - apply Hr. reflexivity.
Defined.

(** Where [size_t] is 32 bits wide the count always fits the result. *)
Corollary encode_count_fits_ilp32 (dst src : buffer) (srcSize : Z) :
  is_size_t 32 srcSize ->
  snd (ALawEncode dst src srcSize) = srcSize / 2 /\
  snd (ULawEncode dst src srcSize) = srcSize / 2.
Proof.
  intros [Hlo Hhi].
  assert (Hsmall : srcSize / 2 < 2 ^ 32).
  { apply Z.div_lt_upper_bound; lia. }
  destruct (encode_transforms dst src srcSize Hlo ALawEncode_S) as (_ & _ & Ha).
  destruct (encode_transforms dst src srcSize Hlo ULawEncode_S) as (_ & _ & Hu).
  split; [apply Ha | apply Hu]; exact Hsmall.
Qed.

(** ** Further properties of the scalar transforms *)

Lemma sample_facts_hold (x : Z) : is_int16 x -> sample_facts x = true.
Proof.
  intros Hx. int16_check sample_facts x Hx H. exact H.
Qed.

(** Reading the conjuncts of [sample_facts] as propositions. *)
Ltac read_check H :=
  repeat match type of H with
         | (_ && _) = true => apply andb_true_iff in H; destruct H as [H ?]
         end;
  repeat match goal with
         | H' : (_ <=? _) = true |- _ => apply Z.leb_le in H'
         | H' : (_ =? _) = true |- _ => apply Z.eqb_eq in H'
         end.

(** X1: quantizing a sample that already is a reconstruction changes
    nothing, in both laws: decode(encode(decode(encode(x)))) is
    decode(encode(x)) for every 16-bit sample x. *)
Theorem recon_idempotent (x : Z) :
  is_int16 x ->
  alaw_recon (to_int16 (alaw_recon x)) = alaw_recon x /\
  ulaw_recon (to_int16 (ulaw_recon x)) = ulaw_recon x.
Proof.
  intros _. unfold alaw_recon, ulaw_recon.
  pose proof (ALawEncode_S_uint8 x) as Ha.
  pose proof (ULawEncode_S_uint8 x) as Hu.
  byte_check
    (fun b => ALawDecode_S (ALawEncode_S (to_int16 (ALawDecode_S b)))
              =? ALawDecode_S b) (ALawEncode_S x) Ha Hfa.
  byte_check
    (fun b => ULawDecode_S (ULawEncode_S (to_int16 (ULawDecode_S b)))
              =? ULawDecode_S b) (ULawEncode_S x) Hu Hfu.
  split; now apply Z.eqb_eq.
Qed.

Lemma recon_idempotent_witness :
  alaw_recon (to_int16 (alaw_recon (- 3))) = alaw_recon (- 3) /\
  ulaw_recon (to_int16 (ulaw_recon (- 3))) = ulaw_recon (- 3).
Proof.
  apply (recon_idempotent (- 3)). unfold is_int16. lia.
Defined.

(** In mu-law the code itself may change: samples -4 to -1 have the code
    0x7f, their reconstruction 0 has the code 0xff. *)
Example ulaw_code_not_kept :
  ULawEncode_S (- 3) = 0x7f /\ ULawEncode_S (to_int16 (ulaw_recon (- 3))) = 0xff.
Proof. split; reflexivity. Qed.

(** X2: the A-law reconstruction of a 16-bit sample is at most half the
    bucket width of its code away from the sample, and never more than 512. *)
Theorem alaw_quantization_error (x : Z) :
  is_int16 x ->
  2 * Z.abs (ALawDecode_S (ALawEncode_S x) - x) <= alaw_step (ALawEncode_S x) /\
  Z.abs (ALawDecode_S (ALawEncode_S x) - x) <= 512.
Proof.
  intros Hx. pose proof (sample_facts_hold x Hx) as H.
  unfold sample_facts in H. cbv zeta in H. read_check H. auto.
Qed.

Lemma alaw_quantization_error_witness :
  2 * Z.abs (ALawDecode_S (ALawEncode_S 1000) - 1000)
    <= alaw_step (ALawEncode_S 1000).
Proof.
  apply (alaw_quantization_error 1000). unfold is_int16. lia.
Defined.

(** X3: the mu-law reconstruction of a 16-bit sample that does not saturate
    is at most half the bucket width of its code away from the sample; with
    saturation the distance is still at most 644. *)
Theorem ulaw_quantization_error (x : Z) :
  is_int16 x ->
  (magnitude x + 0x84 <= 0x7f00 ->
   2 * Z.abs (ULawDecode_S (ULawEncode_S x) - x) <= ulaw_step (ULawEncode_S x)) /\
  Z.abs (ULawDecode_S (ULawEncode_S x) - x) <= 644.
Proof.
  intros Hx. pose proof (sample_facts_hold x Hx) as H.
  unfold sample_facts in H. cbv zeta in H. read_check H.
  split; [|assumption].
  intros Hfit. apply Z.leb_le in Hfit.
  match goal with
  | Himp : implb _ _ = true |- _ => rewrite Hfit in Himp; now apply Z.leb_le
  end.
Qed.

Lemma ulaw_quantization_error_witness :
  2 * Z.abs (ULawDecode_S (ULawEncode_S 1000) - 1000)
    <= ulaw_step (ULawEncode_S 1000) /\
  Z.abs (ULawDecode_S (ULawEncode_S (- 32768)) - - 32768) <= 644.
Proof.
  assert (H1 : is_int16 1000) by (unfold is_int16; lia).
  assert (H2 : is_int16 (- 32768)) by (unfold is_int16; lia).
  assert (Hfit : magnitude 1000 + 0x84 <= 0x7f00) by (vm_compute; discriminate).
  split.
  - exact (proj1 (ulaw_quantization_error 1000 H1) Hfit).
  - exact (proj2 (ulaw_quantization_error (- 32768) H2)).
Defined.

(** The bound 644 is reached at the most negative sample. *)
Example ulaw_worst_error : ULawDecode_S (ULawEncode_S (- 32768)) - - 32768 = 644.
Proof. reflexivity. Qed.

(** Flipping the sign bit of a mu-law code negates the decoded value. *)
Lemma ULawDecode_S_sign_flip (b : Z) :
  is_uint8 b -> ULawDecode_S (Z.lxor b 0x80) = - ULawDecode_S b.
Proof.
  intros Hb.
  byte_check (fun b => ULawDecode_S (Z.lxor b 0x80) =? - ULawDecode_S b) b Hb H.
  now apply Z.eqb_eq.
Qed.

(** X4: mu-law has the sign symmetry of A-law: for every 16-bit sample x the
    reconstruction of the ones' complement -x-1 is the negation of the
    reconstruction of x. *)
Theorem ulaw_sign_symmetry (x : Z) :
  is_int16 x ->
  ULawDecode_S (ULawEncode_S (- x - 1)) = - ULawDecode_S (ULawEncode_S x).
Proof.
  intros Hx. pose proof (sample_facts_hold x Hx) as H.
  unfold sample_facts in H. cbv zeta in H. read_check H.
  match goal with
  | Hc : ULawEncode_S (- x - 1) = _ |- _ => rewrite Hc
  end.
  apply ULawDecode_S_sign_flip, ULawEncode_S_uint8.
Qed.

Lemma ulaw_sign_symmetry_witness :
  ULawDecode_S (ULawEncode_S (- 1000 - 1)) = - ULawDecode_S (ULawEncode_S 1000).
Proof.
  apply (ulaw_sign_symmetry 1000). unfold is_int16. lia.
Defined.

(** X5: a reconstruction never changes the sign of the sample.  A-law has
    no zero level: non-negative samples come back as at least 8, negative
    ones as at most -8.  In mu-law non-negative samples come back
    non-negative and negative ones non-positive. *)
Theorem recon_keeps_sign (x : Z) :
  is_int16 x ->
  (0 <= x -> 8 <= ALawDecode_S (ALawEncode_S x) /\
             0 <= ULawDecode_S (ULawEncode_S x)) /\
  (x < 0 -> ALawDecode_S (ALawEncode_S x) <= - 8 /\
            ULawDecode_S (ULawEncode_S x) <= 0).
Proof.
  intros Hx. pose proof (sample_facts_hold x Hx) as H.
  unfold sample_facts in H. cbv zeta in H.
  destruct (Z.ltb_spec x 0); read_check H; split; intros; try lia; auto.
Qed.

Lemma recon_keeps_sign_witness :
  (8 <= ALawDecode_S (ALawEncode_S 0) /\ 0 <= ULawDecode_S (ULawEncode_S 0)) /\
  (ALawDecode_S (ALawEncode_S (- 1)) <= - 8 /\
   ULawDecode_S (ULawEncode_S (- 1)) <= 0).
Proof.
  assert (H0 : is_int16 0) by (unfold is_int16; lia).
  assert (H1 : is_int16 (- 1)) by (unfold is_int16; lia).
  split.
  - exact (proj1 (recon_keeps_sign 0 H0) ltac:(lia)).
  - exact (proj2 (recon_keeps_sign (- 1) H1) ltac:(lia)).
Defined.

(** X6: the A-law code of a sample does not depend on its four low bits:
    x and x rounded down to a multiple of 16 have the same code. *)
Theorem ALawEncode_S_ignores_low_bits (x : Z) :
  is_int16 x -> ALawEncode_S x = ALawEncode_S (16 * (x / 16)).
Proof.
  intros Hx. pose proof (sample_facts_hold x Hx) as H.
  unfold sample_facts in H. cbv zeta in H. read_check H. assumption.
Qed.

Lemma ALawEncode_S_ignores_low_bits_witness :
  ALawEncode_S 1007 = ALawEncode_S (16 * (1007 / 16)).
Proof.
  apply (ALawEncode_S_ignores_low_bits 1007). unfold is_int16. lia.
Defined.

(** X7: distinct A-law bytes decode to distinct values; in mu-law the only
    two bytes that decode to the same value are the two zeros 0x7f and 0xff. *)
Theorem decode_injective (b c : Z) :
  is_uint8 b -> is_uint8 c ->
  (ALawDecode_S b = ALawDecode_S c -> b = c) /\
  (ULawDecode_S b = ULawDecode_S c ->
   b = c \/ (b = 0x7f /\ c = 0xff) \/ (b = 0xff /\ c = 0x7f)).
Proof.
  intros Hb Hc.
  pose (back := fun b =>
    (ALawEncode_S (to_int16 (ALawDecode_S b)) =? b) &&
    (ULawEncode_S (to_int16 (ULawDecode_S b)) =? if b =? 0x7f then 0xff else b)).
  assert (Hall : all_bytes back = true) by (vm_compute; reflexivity).
  pose proof (all_bytes_spec back Hall b Hb) as Hbb.
  pose proof (all_bytes_spec back Hall c Hc) as Hcc.
  unfold back in Hbb, Hcc. read_check Hbb. read_check Hcc.
  split; intros Heq.
  - congruence.
  - assert (Hsame : (if b =? 0x7f then 0xff else b) = (if c =? 0x7f then 0xff else c))
      by congruence.
    destruct (Z.eqb_spec b 0x7f), (Z.eqb_spec c 0x7f); subst; auto.
Qed.

Lemma decode_injective_witness :
  ULawDecode_S 0x7f = ULawDecode_S 0xff /\
  (0x7f = 0xff \/ (0x7f = 0x7f /\ 0xff = 0xff) \/ (0x7f = 0xff /\ 0xff = 0x7f)).
Proof.
  assert (H1 : is_uint8 0x7f) by (unfold is_uint8; lia).
  assert (H2 : is_uint8 0xff) by (unfold is_uint8; lia).
  split; [reflexivity|].
  exact (proj2 (decode_injective 0x7f 0xff H1 H2) eq_refl).
Defined.

(** ** Further properties of the direct conversions *)

(** X8: for every byte b, ULawToALaw_S(b) and the composed path
    ALawEncode_S(ULawDecode_S(b)) give A-law bucket numbers at most one
    apart, with the same sign except at the mu-law negative zero 0x7f, whose
    sign only the direct conversion keeps. *)
Theorem ulaw_to_alaw_near_composed (b : Z) :
  is_uint8 b ->
  let direct := ULawToALaw_S b in
  let composed := ALawEncode_S (to_int16 (ULawDecode_S b)) in
  Z.abs (alaw_level direct - alaw_level composed) <= 1 /\
  (b <> 0x7f -> alaw_sign direct = alaw_sign composed) /\
  (b = 0x7f -> direct = 0x55 /\ composed = 0xd5).
Proof.
  intros Hb.
  byte_check
    (fun b =>
       let direct := ULawToALaw_S b in
       let composed := ALawEncode_S (to_int16 (ULawDecode_S b)) in
       (Z.abs (alaw_level direct - alaw_level composed) <=? 1) &&
       (if b =? 0x7f
        then (direct =? 0x55) && (composed =? 0xd5)
        else alaw_sign direct =? alaw_sign composed)) b Hb H.
  cbv zeta in *. apply andb_true_iff in H as [Hl Hs]. apply Z.leb_le in Hl.
  split; [exact Hl|].
  destruct (Z.eqb_spec b 0x7f) as [->|Hne].
  - split; [congruence|]. intros _. split; reflexivity.
  - split; [intros _; now apply Z.eqb_eq | contradiction].
Qed.

Lemma ulaw_to_alaw_near_composed_witness :
  Z.abs (alaw_level (ULawToALaw_S 0x20)
         - alaw_level (ALawEncode_S (to_int16 (ULawDecode_S 0x20)))) <= 1 /\
  alaw_sign (ULawToALaw_S 0x20)
    = alaw_sign (ALawEncode_S (to_int16 (ULawDecode_S 0x20))).
Proof.
  assert (Hb : is_uint8 0x20) by (unfold is_uint8; lia).
  destruct (ulaw_to_alaw_near_composed 0x20 Hb) as (Hl & Hs & _).
  split; [exact Hl | apply Hs; discriminate].
Defined.

(** X9: for every byte b, ALawToULaw_S(ULawToALaw_S(b)) keeps the sign of b
    and lands in the same or a neighbouring mu-law bucket. *)
Theorem ulaw_alaw_ulaw_chain (b : Z) :
  is_uint8 b ->
  let back := ALawToULaw_S (ULawToALaw_S b) in
  ulaw_sign back = ulaw_sign b /\
  Z.abs (ulaw_level back - ulaw_level b) <= 1 /\
  Z.abs (ULawDecode_S back - ULawDecode_S b)
    <= Z.max (ulaw_step back) (ulaw_step b).
Proof.
  intros Hb.
  byte_check
    (fun b =>
       let back := ALawToULaw_S (ULawToALaw_S b) in
       (ulaw_sign back =? ulaw_sign b) &&
       (Z.abs (ulaw_level back - ulaw_level b) <=? 1) &&
       (Z.abs (ULawDecode_S back - ULawDecode_S b)
          <=? Z.max (ulaw_step back) (ulaw_step b))) b Hb H.
  cbv zeta in *. read_check H. auto.
Qed.

Lemma ulaw_alaw_ulaw_chain_witness :
  ulaw_sign (ALawToULaw_S (ULawToALaw_S 113)) = ulaw_sign 113 /\
  Z.abs (ulaw_level (ALawToULaw_S (ULawToALaw_S 113)) - ulaw_level 113) <= 1.
Proof.
  assert (Hb : is_uint8 113) by (unfold is_uint8; lia).
  destruct (ulaw_alaw_ulaw_chain 113 Hb) as (Hs & Hl & _).
  split; [exact Hs | exact Hl].
Defined.

(** X10: both direct conversions copy bit 7, the sign bit on the wire, from
    their argument to their result. *)
Theorem conversions_keep_sign_bit (b : Z) :
  is_uint8 b ->
  Z.land (ALawToULaw_S b) 0x80 = Z.land b 0x80 /\
  Z.land (ULawToALaw_S b) 0x80 = Z.land b 0x80.
Proof.
  intros Hb.
  byte_check
    (fun b => (Z.land (ALawToULaw_S b) 0x80 =? Z.land b 0x80) &&
              (Z.land (ULawToALaw_S b) 0x80 =? Z.land b 0x80)) b Hb H.
  read_check H. auto.
Qed.

Lemma conversions_keep_sign_bit_witness :
  Z.land (ALawToULaw_S 0xd5) 0x80 = Z.land 0xd5 0x80.
Proof.
  apply (conversions_keep_sign_bit 0xd5). unfold is_uint8. lia.
Defined.

(** The bucket number that a conversion gives depends on the bucket number
    of its argument only. *)
Lemma conversion_levels (b : Z) :
  is_uint8 b ->
  0 <= alaw_level b <= 127 /\
  0 <= ulaw_level b <= 127 /\
  ulaw_level (ALawToULaw_S b)
    = ulaw_level (ALawToULaw_S (Z.lxor (alaw_level b) 0x55)) /\
  alaw_level (ULawToALaw_S b)
    = alaw_level (ULawToALaw_S (Z.lxor (ulaw_level b) 0x7f)).
Proof.
  intros Hb.
  byte_check
    (fun b =>
       (0 <=? alaw_level b) && (alaw_level b <=? 127) &&
       (0 <=? ulaw_level b) && (ulaw_level b <=? 127) &&
       (ulaw_level (ALawToULaw_S b)
          =? ulaw_level (ALawToULaw_S (Z.lxor (alaw_level b) 0x55))) &&
       (alaw_level (ULawToALaw_S b)
          =? alaw_level (ULawToALaw_S (Z.lxor (ulaw_level b) 0x7f)))) b Hb H.
  read_check H. auto.
Qed.

Lemma conversion_level_steps (l : Z) :
  0 <= l < 127 ->
  ulaw_level (ALawToULaw_S (Z.lxor l 0x55))
    <= ulaw_level (ALawToULaw_S (Z.lxor (l + 1) 0x55)) /\
  alaw_level (ULawToALaw_S (Z.lxor l 0x7f))
    <= alaw_level (ULawToALaw_S (Z.lxor (l + 1) 0x7f)).
Proof.
  intros Hl.
  pose (P := fun l =>
    (ulaw_level (ALawToULaw_S (Z.lxor l 0x55))
       <=? ulaw_level (ALawToULaw_S (Z.lxor (l + 1) 0x55))) &&
    (alaw_level (ULawToALaw_S (Z.lxor l 0x7f))
       <=? alaw_level (ULawToALaw_S (Z.lxor (l + 1) 0x7f)))).
  assert (H : all_in_range (Z.to_nat 127) 0 P = true) by (vm_compute; reflexivity).
  pose proof (all_in_range_count P 127 0 H l ltac:(lia)) as Hp.
  unfold P in Hp. read_check Hp. auto.
Qed.

(** X11: both direct conversions preserve the order of magnitudes: a byte
    with a larger bucket number never converts to a smaller bucket number. *)
Theorem conversions_monotone (b c : Z) :
  is_uint8 b -> is_uint8 c ->
  (alaw_level b <= alaw_level c ->
   ulaw_level (ALawToULaw_S b) <= ulaw_level (ALawToULaw_S c)) /\
  (ulaw_level b <= ulaw_level c ->
   alaw_level (ULawToALaw_S b) <= alaw_level (ULawToALaw_S c)).
Proof.
  intros Hb Hc.
  destruct (conversion_levels b Hb) as (Hab & Hub & Eab & Eub).
  destruct (conversion_levels c Hc) as (Hac & Huc & Eac & Euc).
  split; intros Hle.
  - rewrite Eab, Eac.
    apply (monotone_from_steps
             (fun l => ulaw_level (ALawToULaw_S (Z.lxor l 0x55))) 0 127);
      try lia.
    intros l Hl. apply (conversion_level_steps l Hl).
  - rewrite Eub, Euc.
    apply (monotone_from_steps
             (fun l => alaw_level (ULawToALaw_S (Z.lxor l 0x7f))) 0 127);
      try lia.
    intros l Hl. apply (conversion_level_steps l Hl).
Qed.

Lemma conversions_monotone_witness :
  ulaw_level (ALawToULaw_S 0x55) <= ulaw_level (ALawToULaw_S 0x2a).
Proof.
  assert (Hb : is_uint8 0x55) by (unfold is_uint8; lia).
  assert (Hc : is_uint8 0x2a) by (unfold is_uint8; lia).
  apply (proj1 (conversions_monotone 0x55 0x2a Hb Hc)).
  vm_compute. discriminate.
Defined.

(** X12: converting to the other law and back is stable after the first
    round: a third conversion gives what the first one gave. *)
Theorem conversion_round_trip_stable (b : Z) :
  is_uint8 b ->
  ALawToULaw_S (ULawToALaw_S (ALawToULaw_S b)) = ALawToULaw_S b /\
  ULawToALaw_S (ALawToULaw_S (ULawToALaw_S b)) = ULawToALaw_S b.
Proof.
  intros Hb.
  byte_check
    (fun b =>
       (ALawToULaw_S (ULawToALaw_S (ALawToULaw_S b)) =? ALawToULaw_S b) &&
       (ULawToALaw_S (ALawToULaw_S (ULawToALaw_S b)) =? ULawToALaw_S b)) b Hb H.
  read_check H. auto.
Qed.

Lemma conversion_round_trip_stable_witness :
  ALawToULaw_S (ULawToALaw_S (ALawToULaw_S 26)) = ALawToULaw_S 26.
Proof.
  apply (conversion_round_trip_stable 26). unfold is_uint8. lia.
Defined.

(** X13: a converted byte decodes close to what the original byte decodes
    to: within one mu-law bucket width of the original for ULawToALaw_S,
    within one A-law bucket width plus 4 for ALawToULaw_S. *)
Theorem conversion_error (b : Z) :
  is_uint8 b ->
  Z.abs (ALawDecode_S (ULawToALaw_S b) - ULawDecode_S b) <= ulaw_step b /\
  Z.abs (ULawDecode_S (ALawToULaw_S b) - ALawDecode_S b) <= alaw_step b + 4.
Proof.
  intros Hb.
  byte_check
    (fun b =>
       (Z.abs (ALawDecode_S (ULawToALaw_S b) - ULawDecode_S b) <=? ulaw_step b) &&
       (Z.abs (ULawDecode_S (ALawToULaw_S b) - ALawDecode_S b)
          <=? alaw_step b + 4)) b Hb H.
  read_check H. auto.
Qed.

Lemma conversion_error_witness :
  Z.abs (ULawDecode_S (ALawToULaw_S 26) - ALawDecode_S 26) <= alaw_step 26 + 4.
Proof.
  apply (conversion_error 26). unfold is_uint8. lia.
Defined.

(** The second bound is reached: A-law byte 26 decodes to -4032, its
    conversion to -3900, and the bucket of 26 is 128 wide. *)
Example conversion_error_reached :
  ALawDecode_S 26 = - 4032 /\ ULawDecode_S (ALawToULaw_S 26) = - 3900 /\
  alaw_step 26 = 128.
Proof. repeat split. Qed.

(** ** Further properties of the buffer transforms *)

Lemma in_range_true (i n : Z) : 0 <= i < n -> (0 <=? i) && (i <? n) = true.
Proof.
  intros Hi. apply andb_true_iff. split; [apply Z.leb_le | apply Z.ltb_lt]; lia.
Qed.

(** X14: decoding a buffer of n bytes and encoding the samples again, with
    the size the decoder returned, restores the bytes: all of them in A-law,
    all but the negative zero 0x7f (which becomes 0xff) in mu-law.  The
    decoder returns 2*n and the encoder n, provided 2*n fits [unsigned]. *)
Theorem decode_then_encode
  (size_t_bits : Z) (pcm out src : buffer) (n : Z) :
  32 <= size_t_bits ->
  0 <= n -> 2 * n < 2 ^ 32 ->
  (forall k, 0 <= k < n -> is_uint8 (src k)) ->
  let adec := ALawDecode size_t_bits pcm src n in
  let aenc := ALawEncode out (fst adec) (snd adec) in
  let udec := ULawDecode size_t_bits pcm src n in
  let uenc := ULawEncode out (fst udec) (snd udec) in
  snd adec = 2 * n /\ snd aenc = n /\
  snd udec = 2 * n /\ snd uenc = n /\
  forall i,
    fst aenc i = (if (0 <=? i) && (i <? n) then src i else out i) /\
    fst uenc i = (if (0 <=? i) && (i <? n)
                  then (if src i =? 0x7f then 0xff else src i)
                  else out i).
Proof.
  intros Hbits Hn Hfit Hsrc adec aenc udec uenc.
  destruct (decode_transforms size_t_bits pcm src n Hn
              (fun c => to_int16 (ALawDecode_S c)) Hbits) as (Haw & _ & Har).
  destruct (decode_transforms size_t_bits pcm src n Hn
              (fun c => to_int16 (ULawDecode_S c)) Hbits) as (Huw & _ & Hur).
  fold (ALawDecode size_t_bits pcm src n) in Haw, Har. fold adec in Haw, Har.
  fold (ULawDecode size_t_bits pcm src n) in Huw, Hur. fold udec in Huw, Hur.
  specialize (Har Hfit). specialize (Hur Hfit).
  assert (Hhalf : 2 * n / 2 = n) by (rewrite Z.mul_comm; apply Z.div_mul; lia).
  destruct (encode_transforms out (fst adec) (2 * n) ltac:(lia) ALawEncode_S)
    as (Haew & _ & Haer).
  destruct (encode_transforms out (fst udec) (2 * n) ltac:(lia) ULawEncode_S)
    as (Huew & _ & Huer).
  fold (ALawEncode out (fst adec) (2 * n)) in Haew, Haer.
  fold (ULawEncode out (fst udec) (2 * n)) in Huew, Huer.
  rewrite Hhalf in Haew, Haer, Huew, Huer.
  subst aenc uenc. rewrite Har, Hur.
  repeat split; try assumption; try (apply Haer; lia); try (apply Huer; lia).
  - rewrite (Haew i).
    destruct ((0 <=? i) && (i <? n)) eqn:Hin; [|reflexivity].
    apply andb_true_iff in Hin as [H0 H1]. apply Z.leb_le in H0. apply Z.ltb_lt in H1.
    rewrite (Haw i), in_range_true by lia.
    pose proof (Hsrc i ltac:(lia)) as Hb.
    byte_check (fun b => ALawEncode_S (to_int16 (ALawDecode_S b)) =? b)
               (src i) Hb H.
    now apply Z.eqb_eq.
  - rewrite (Huew i).
    destruct ((0 <=? i) && (i <? n)) eqn:Hin; [|reflexivity].
    apply andb_true_iff in Hin as [H0 H1]. apply Z.leb_le in H0. apply Z.ltb_lt in H1.
    rewrite (Huw i), in_range_true by lia.
    pose proof (Hsrc i ltac:(lia)) as Hb.
    byte_check
      (fun b => ULawEncode_S (to_int16 (ULawDecode_S b))
                =? if b =? 0x7f then 0xff else b) (src i) Hb H.
    now apply Z.eqb_eq.
Qed.

Lemma decode_then_encode_witness :
  prefix 4 (fst (ULawEncode (buffer_of_list [7; 7; 7; 7])
                   (fst (ULawDecode 64 zeros (buffer_of_list [0x12; 0x7f; 0xff]) 3))
                   (snd (ULawDecode 64 zeros (buffer_of_list [0x12; 0x7f; 0xff]) 3))))
  = [0x12; 0xff; 0xff; 7].
Proof.
  assert (Hsrc : forall k, 0 <= k < 3 ->
                   is_uint8 (buffer_of_list [0x12; 0x7f; 0xff] k)).
  { intros k Hk.
    assert (Hc : k = 0 \/ k = 1 \/ k = 2) by lia.
    destruct Hc as [-> | [-> | ->]]; unfold is_uint8;
      (split; [apply Z.leb_le | apply Z.ltb_lt]; reflexivity). }
  destruct (decode_then_encode 64 zeros (buffer_of_list [7; 7; 7; 7])
              (buffer_of_list [0x12; 0x7f; 0xff]) 3
              ltac:(lia) ltac:(lia) ltac:(lia) Hsrc)
    as (_ & _ & _ & _ & Hcells).
  unfold prefix. cbn [map seq].
  rewrite (proj2 (Hcells (Z.of_nat 0))), (proj2 (Hcells (Z.of_nat 1))),
          (proj2 (Hcells (Z.of_nat 2))), (proj2 (Hcells (Z.of_nat 3))).
  reflexivity.
Defined.

(** X15: encoding a buffer of srcSize bytes of samples and decoding the
    codes again, with the count the encoder returned, puts in each of the
    srcSize/2 cells the reconstruction of the sample; the decoder returns
    srcSize rounded down to an even number, provided that fits [unsigned]. *)
Theorem encode_then_decode
  (size_t_bits : Z) (codes out src : buffer) (srcSize : Z) :
  32 <= size_t_bits ->
  0 <= srcSize < 2 ^ 32 ->
  let aenc := ALawEncode codes src srcSize in
  let adec := ALawDecode size_t_bits out (fst aenc) (snd aenc) in
  let uenc := ULawEncode codes src srcSize in
  let udec := ULawDecode size_t_bits out (fst uenc) (snd uenc) in
  snd adec = 2 * (srcSize / 2) /\
  snd udec = 2 * (srcSize / 2) /\
  forall i,
    fst adec i = (if (0 <=? i) && (i <? srcSize / 2)
                  then ALawDecode_S (ALawEncode_S (src i)) else out i) /\
    fst udec i = (if (0 <=? i) && (i <? srcSize / 2)
                  then ULawDecode_S (ULawEncode_S (src i)) else out i).
Proof.
  intros Hbits [Hlo Hhi] aenc adec uenc udec.
  assert (Hcount : 0 <= srcSize / 2) by (apply Z.div_pos; lia).
  assert (Hsmall : 2 * (srcSize / 2) < 2 ^ 32).
  { pose proof (Z.mul_div_le srcSize 2 ltac:(lia)). lia. }
  destruct (encode_transforms codes src srcSize Hlo ALawEncode_S) as (Haw & _ & Har).
  destruct (encode_transforms codes src srcSize Hlo ULawEncode_S) as (Huw & _ & Hur).
  fold (ALawEncode codes src srcSize) in Haw, Har. fold aenc in Haw, Har.
  fold (ULawEncode codes src srcSize) in Huw, Hur. fold uenc in Huw, Hur.
  specialize (Har ltac:(lia)). specialize (Hur ltac:(lia)).
  destruct (decode_transforms size_t_bits out (fst aenc) (srcSize / 2) Hcount
              (fun c => to_int16 (ALawDecode_S c)) Hbits) as (Hadw & _ & Hadr).
  destruct (decode_transforms size_t_bits out (fst uenc) (srcSize / 2) Hcount
              (fun c => to_int16 (ULawDecode_S c)) Hbits) as (Hudw & _ & Hudr).
  fold (ALawDecode size_t_bits out (fst aenc) (srcSize / 2)) in Hadw, Hadr.
  fold (ULawDecode size_t_bits out (fst uenc) (srcSize / 2)) in Hudw, Hudr.
  subst adec udec. rewrite Har, Hur.
  split; [apply Hadr, Hsmall|]. split; [apply Hudr, Hsmall|].
  intros i. rewrite (Hadw i), (Hudw i).
  destruct ((0 <=? i) && (i <? srcSize / 2)) eqn:Hin; [|split; reflexivity].
  rewrite (Haw i), (Huw i), Hin.
  split; apply to_int16_id.
  - apply (decode_is_int16 _ (ALawEncode_S_uint8 (src i))).
  - apply (decode_is_int16 _ (ULawEncode_S_uint8 (src i))).
Qed.

Lemma encode_then_decode_witness :
  snd (ALawDecode 64 zeros
         (fst (ALawEncode zeros (buffer_of_list [100; - 100; 3000]) 7))
         (snd (ALawEncode zeros (buffer_of_list [100; - 100; 3000]) 7))) = 6 /\
  prefix 4 (fst (ALawDecode 64 zeros
         (fst (ALawEncode zeros (buffer_of_list [100; - 100; 3000]) 7))
         (snd (ALawEncode zeros (buffer_of_list [100; - 100; 3000]) 7))))
  = [104; - 104; 3008; 0].
Proof.
  destruct (encode_then_decode 64 zeros zeros (buffer_of_list [100; - 100; 3000]) 7
              ltac:(lia) ltac:(lia)) as (Hret & _ & Hcells).
  split; [exact Hret|].
  unfold prefix. cbn [map seq].
  rewrite (proj1 (Hcells (Z.of_nat 0))), (proj1 (Hcells (Z.of_nat 1))),
          (proj1 (Hcells (Z.of_nat 2))), (proj1 (Hcells (Z.of_nat 3))).
  reflexivity.
Defined.

(** The loop over [n + m] elements is the loop over [n] elements followed by
    the loop over the [m] next ones. *)
Lemma transform_app (f : Z -> Z) (inp : buffer) (m : nat) :
  forall (n : nat) (dst src : Z) (out : buffer),
    transform f (n + m) dst src out inp
    = transform f m (dst + Z.of_nat n) (src + Z.of_nat n)
                (transform f n dst src out inp) inp.
Proof.
  induction n as [|k IH]; intros dst src out.
  - cbn [transform Nat.add Z.of_nat]. now rewrite !Z.add_0_r.
  - cbn [transform Nat.add]. rewrite IH, Nat2Z.inj_succ.
    replace (dst + 1 + Z.of_nat k) with (dst + Z.succ (Z.of_nat k)) by lia.
    replace (src + 1 + Z.of_nat k) with (src + Z.succ (Z.of_nat k)) by lia.
    reflexivity.
Qed.

(** A call on buffers advanced by [n] elements sees cell [n + j] as cell [j]. *)
Lemma transform_advance (f : Z -> Z) (out inp : buffer) (n : Z) (m : nat) (j : Z) :
  transform f m 0 0 (advance out n) (advance inp n) j
  = transform f m n n out inp (n + j).
Proof.
  rewrite !transform_spec. unfold advance.
  destruct (Z.leb_spec 0 j), (Z.ltb_spec j (0 + Z.of_nat m)),
           (Z.leb_spec n (n + j)), (Z.ltb_spec (n + j) (n + Z.of_nat m));
    cbn [andb]; try lia; try reflexivity.
  do 2 f_equal. lia.
Qed.

Lemma transform_chunks (f : Z -> Z) (dst src : buffer) (n m : Z) :
  0 <= n -> 0 <= m ->
  chunks_agree
    (transform f (Z.to_nat (0 + (n + m) - 0)) 0 0 dst src)
    (transform f (Z.to_nat (0 + n - 0)) 0 0 dst src)
    (transform f (Z.to_nat (0 + m - 0)) 0 0
       (advance (transform f (Z.to_nat (0 + n - 0)) 0 0 dst src) n)
       (advance src n))
    n.
Proof.
  intros Hn Hm j.
  replace (0 + (n + m) - 0) with (n + m) by lia.
  replace (0 + n - 0) with n by lia.
  replace (0 + m - 0) with m by lia.
  rewrite Z2Nat.inj_add by lia. rewrite transform_app.
  rewrite Z2Nat.id, !Z.add_0_l by lia.
  destruct (Z.ltb_spec j n) as [Hlt|Hge].
  - rewrite transform_spec.
    destruct (Z.leb_spec n j); [lia|]. reflexivity.
  - rewrite transform_advance. f_equal. lia.
Qed.

(** X16: a buffer may be processed in two calls: a call on the first chunk
    followed by a call on both pointers advanced past it leaves the
    destination as one call on the whole buffer does.  For the encoders the
    chunks are 2*n and 2*m bytes of samples, for the other transforms n and
    m bytes of codes. *)
Theorem calls_on_chunks (size_t_bits : Z) (dst src : buffer) (n m : Z) :
  0 <= n -> 0 <= m ->
  chunks_agree
    (fst (ALawEncode dst src (2 * (n + m))))
    (fst (ALawEncode dst src (2 * n)))
    (fst (ALawEncode (advance (fst (ALawEncode dst src (2 * n))) n)
                     (advance src n) (2 * m))) n /\
  chunks_agree
    (fst (ULawEncode dst src (2 * (n + m))))
    (fst (ULawEncode dst src (2 * n)))
    (fst (ULawEncode (advance (fst (ULawEncode dst src (2 * n))) n)
                     (advance src n) (2 * m))) n /\
  chunks_agree
    (fst (ALawDecode size_t_bits dst src (n + m)))
    (fst (ALawDecode size_t_bits dst src n))
    (fst (ALawDecode size_t_bits
            (advance (fst (ALawDecode size_t_bits dst src n)) n)
            (advance src n) m)) n /\
  chunks_agree
    (fst (ULawDecode size_t_bits dst src (n + m)))
    (fst (ULawDecode size_t_bits dst src n))
    (fst (ULawDecode size_t_bits
            (advance (fst (ULawDecode size_t_bits dst src n)) n)
            (advance src n) m)) n /\
  chunks_agree
    (fst (ALawToULaw dst src (n + m)))
    (fst (ALawToULaw dst src n))
    (fst (ALawToULaw (advance (fst (ALawToULaw dst src n)) n)
                     (advance src n) m)) n /\
  chunks_agree
    (fst (ULawToALaw dst src (n + m)))
    (fst (ULawToALaw dst src n))
    (fst (ULawToALaw (advance (fst (ULawToALaw dst src n)) n)
                     (advance src n) m)) n.
Proof.
  intros Hn Hm.
  assert (Hh : forall k, Z.shiftr (2 * k) 1 = k).
  { intros k. rewrite shiftr_1_half, Z.mul_comm. apply Z.div_mul. lia. }
  unfold ALawEncode, ULawEncode, ALawDecode, ULawDecode, ALawToULaw, ULawToALaw.
  cbv zeta. cbn [fst]. rewrite !Hh.
  repeat split; apply transform_chunks; assumption.
Qed.

Lemma calls_on_chunks_witness :
  prefix 3 (fst (ALawToULaw (advance (fst (ALawToULaw zeros
                                             (buffer_of_list [1; 2; 3]) 1)) 1)
                            (advance (buffer_of_list [1; 2; 3]) 1) 2))
  = [fst (ALawToULaw zeros (buffer_of_list [1; 2; 3]) 3) 1;
     fst (ALawToULaw zeros (buffer_of_list [1; 2; 3]) 3) 2;
     fst (ALawToULaw zeros (buffer_of_list [1; 2; 3]) 3) 3].
Proof.
  destruct (calls_on_chunks 64 zeros (buffer_of_list [1; 2; 3]) 1 2
              ltac:(lia) ltac:(lia)) as (_ & _ & _ & _ & Hc & _).
  change (1 + 2) with 3 in Hc.
  rewrite (Hc 1), (Hc 2), (Hc 3). reflexivity.
Defined.
